(** * Hand-rolled RTTI: descriptors, ancestry queries and static binding

    A shallow embedding of [src/rtti/variadic-definition.cpp].

    The C++ class [RTTI] holds a class name and a vector of pointers to the
    descriptors of the direct parents.  Descriptor identity is pointer
    identity ([this == &r]), so descriptors live in a store indexed by their
    address and parent lists hold addresses.  [derivesFrom] recurses through
    those pointers; the recursion is not structural, so the embedding takes a
    recursion budget and reports separately when the budget is exhausted and
    when a pointer that refers to no descriptor is dereferenced. *)

From stdpp Require Import gmap strings list relations.

(** ** Data model *)

(** The address of a descriptor object. *)
Abbreviation addr := nat (only parsing).

(** [class RTTI]: the two private members, in declaration order. *)
Record RTTI := mkRTTI {
  m_className : string;
  m_parents : list addr
}.

(** The store of live descriptor objects. *)
Abbreviation heap := (gmap nat RTTI) (only parsing).

(** What a call does: it returns a value, it is still running when the
    recursion budget ends, or it dereferences an address at which no
    descriptor lives (undefined behaviour in C++). *)
Inductive outcome (A : Type) : Type :=
  | Returned (a : A)
  | OutOfFuel
  | BadDeref.
Arguments Returned {A} a.
Arguments OutOfFuel {A}.
Arguments BadDeref {A}.

(** ** Operations of [class RTTI] *)

(** [RTTI::RTTI(className, parents)], constructing the object at address
    [this]: both members are initialised from the arguments, nothing is
    checked. *)
Definition RTTI_new (this : addr) (className : string) (parents : list addr)
    (h : heap) : heap :=
  <[this := mkRTTI className parents]> h.

(** [RTTI::getClassName]. *)
Definition getClassName (d : RTTI) : string := m_className d.

(** The [for] loop of [derivesFrom] over [m_parents]: the parents are queried
    in order and the loop returns [true] at the first parent whose query
    returns [true]; after the last parent the function returns [false]. *)
Fixpoint parents_loop (call : addr → outcome bool) (ps : list addr)
    : outcome bool :=
  match ps with
  | [] => Returned false
  | p :: ps' =>
      match call p with
      | Returned true => Returned true
      | Returned false => parents_loop call ps'
      | OutOfFuel => OutOfFuel
      | BadDeref => BadDeref
      end
  end.

(** [RTTI::derivesFrom], called on the object at [this] with a reference to
    the object at [r].  The pointer comparison comes first and reads no
    member; [r] itself is never dereferenced. *)
Fixpoint derivesFrom (h : heap) (fuel : nat) (this r : addr) : outcome bool :=
  match fuel with
  | 0 => OutOfFuel
  | S fuel' =>
      if decide (this = r) then Returned true
      else
        match h !! this with
        | None => BadDeref
        | Some d => parents_loop (λ p, derivesFrom h fuel' p r) (m_parents d)
        end
  end.

(** ** The parent graph *)

(** A direct-parent edge: [q] is listed in the parent vector of the
    descriptor at [p]. *)
Definition parent_edge (h : heap) (p q : addr) : Prop :=
  ∃ d, h !! p = Some d ∧ q ∈ m_parents d.

(** Every parent pointer refers to a descriptor of the store. *)
Definition closed (h : heap) : Prop :=
  ∀ p q, parent_edge h p q → is_Some (h !! q).

(** No descriptor is reachable from itself by one or more parent edges. *)
Definition acyclic (h : heap) : Prop :=
  ∀ p, ¬ tc (parent_edge h) p p.

(** A construction history: descriptors are constructed one after the other,
    each at an address where no descriptor lives yet and with a parent list
    naming only descriptors that are already constructed. *)
Inductive constructible : heap → Prop :=
  | constructible_empty : constructible ∅
  | constructible_new h this className parents :
      constructible h →
      h !! this = None →
      Forall (λ p, is_Some (h !! p)) parents →
      constructible (RTTI_new this className parents h).

(** An executable form of the same: run a list of constructor calls, oldest
    first, checking the two side conditions of [constructible_new]. *)
Definition ctor_call : Type := addr * string * list addr.

Definition ctor_ok (h : heap) (c : ctor_call) : bool :=
  bool_decide (h !! c.1.1 = None)
  && forallb (λ p, bool_decide (is_Some (h !! p))) c.2.

Fixpoint run_ctors (cs : list ctor_call) (h : heap) : option heap :=
  match cs with
  | [] => Some h
  | c :: cs' =>
      if ctor_ok h c then run_ctors cs' (RTTI_new c.1.1 c.1.2 c.2 h)
      else None
  end.

(** ** The memoized ancestry query

    The specification allows an implementation to keep, for the duration of
    one query, a table of the descriptors already visited together with the
    result found for them, and to answer from the table instead of traversing
    a descriptor again.  This definition follows those words; it is compared
    below with [derivesFrom], which follows the source. *)

Abbreviation memo_table := (gmap nat bool) (only parsing).

Fixpoint parents_loop_memo
    (call : addr → memo_table → outcome (bool * memo_table))
    (ps : list addr) (cache : memo_table) : outcome (bool * memo_table) :=
  match ps with
  | [] => Returned (false, cache)
  | p :: ps' =>
      match call p cache with
      | Returned (true, cache') => Returned (true, cache')
      | Returned (false, cache') => parents_loop_memo call ps' cache'
      | OutOfFuel => OutOfFuel
      | BadDeref => BadDeref
      end
  end.

Fixpoint derivesFrom_memo (h : heap) (fuel : nat) (this r : addr)
    (cache : memo_table) : outcome (bool * memo_table) :=
  match fuel with
  | 0 => OutOfFuel
  | S fuel' =>
      if decide (this = r) then Returned (true, cache)
      else
        match cache !! this with
        | Some b => Returned (b, cache)
        | None =>
            match h !! this with
            | None => BadDeref
            | Some d =>
                match parents_loop_memo
                        (λ p c, derivesFrom_memo h fuel' p r c)
                        (m_parents d) cache with
                | Returned (b, cache') => Returned (b, <[this := b]> cache')
                | OutOfFuel => OutOfFuel
                | BadDeref => BadDeref
                end
            end
        end
  end.

(** One memoized query: the table starts empty and is dropped at the end. *)
Definition derivesFrom_memoized (h : heap) (fuel : nat) (this r : addr)
    : outcome bool :=
  match derivesFrom_memo h fuel this r ∅ with
  | Returned (b, _) => Returned b
  | OutOfFuel => OutOfFuel
  | BadDeref => BadDeref
  end.

(** Soundness of a table for queries about [r]: every entry is an answer the
    plain query gives. *)
Definition table_sound (h : heap) (r : addr) (cache : memo_table) : Prop :=
  ∀ p b, cache !! p = Some b → ∃ fuel, derivesFrom h fuel p r = Returned b.

(** ** The static binding layer *)

(** The five classes of the demo hierarchy. *)
Inductive Class : Type :=
  | StaffMember
  | Librarian
  | Teacher
  | TeachingLibrarian
  | Sailboat.

(** The base-class list of each class declaration. *)
Definition bases (c : Class) : list Class :=
  match c with
  | StaffMember => []
  | Librarian => [StaffMember]
  | Teacher => [StaffMember]
  | TeachingLibrarian => [Teacher; Librarian]
  | Sailboat => []
  end.

(** [#ThisClass] in [RTTI_DEFINE]. *)
Definition stringify (c : Class) : string :=
  match c with
  | StaffMember => "StaffMember"
  | Librarian => "Librarian"
  | Teacher => "Teacher"
  | TeachingLibrarian => "TeachingLibrarian"
  | Sailboat => "Sailboat"
  end.

(** The [RTTI_DEFINE(ThisClass, Parents...)] lines, in the order in which the
    translation unit lists (and so initialises) them. *)
Definition RTTI_DEFINE_lines : list (Class * list Class) :=
  [ (StaffMember, []);
    (Librarian, [StaffMember]);
    (Teacher, [StaffMember]);
    (TeachingLibrarian, [Teacher; Librarian]);
    (Sailboat, []) ].

(** A pointer to an instance: the class the pointer is declared with and the
    class the instance was created as. *)
Record instance_ptr := mkPtr {
  static_type : Class;
  dynamic_type : Class
}.

(** The instances of [classfulRTTITest]. *)
Definition staff : instance_ptr := mkPtr StaffMember StaffMember.
Definition librarian : instance_ptr := mkPtr StaffMember Librarian.
Definition teacher : instance_ptr := mkPtr StaffMember Teacher.
Definition teachingLibrarian : instance_ptr := mkPtr StaffMember TeachingLibrarian.
Definition sailboat : instance_ptr := mkPtr Sailboat Sailboat.

Section static_binding.
(** [&C::typeInfo]: where the static member of each class is stored. *)
Variable typeInfo : Class → addr.

(** [RTTIInfo<Derived, Parents...>(className)] builds the parent vector
    [{ &Parents::typeInfo... }]; [RTTI_DEFINE] copies the result into
    [ThisClass::typeInfo]. *)
Definition RTTI_DEFINE (line : Class * list Class) (h : heap) : heap :=
  RTTI_new (typeInfo line.1) (stringify line.1) (typeInfo <$> line.2) h.

(** The store after static initialisation. *)
Definition static_heap : heap :=
  foldl (λ h line, RTTI_DEFINE line h) ∅ RTTI_DEFINE_lines.

(** The same initialisation as a list of constructor calls. *)
Definition static_ctors : list ctor_call :=
  (λ line : Class * list Class,
     (typeInfo line.1, stringify line.1, typeInfo <$> line.2))
    <$> RTTI_DEFINE_lines.

(** The body that [RTTI_DECLARE] puts into class [c]: [return typeInfo;],
    where the name resolves to the member that [c] itself declares. *)
Definition RTTI_DECLARE (c : Class) : addr := typeInfo c.

(** [p->getTypeInfo()].  The function is virtual and every class of the
    hierarchy expands [RTTI_DECLARE], so the call runs the body of the
    class the instance was created as. *)
Definition getTypeInfo (p : instance_ptr) : addr :=
  RTTI_DECLARE (dynamic_type p).

(** What a non-virtual accessor would give: the member of the class the
    pointer is declared with. *)
Definition static_typeInfo (p : instance_ptr) : addr :=
  typeInfo (static_type p).
End static_binding.

(** One placement of the five static members, in the order of their
    definition. *)
Definition typeInfo_layout (c : Class) : addr :=
  match c with
  | StaffMember => 0
  | Librarian => 1
  | Teacher => 2
  | TeachingLibrarian => 3
  | Sailboat => 4
  end.

(** The descriptors of [classlessRTTITest], at the addresses 0 to 4 in the
    order of their construction. *)
Definition classless_ctors : list ctor_call :=
  [ (0, "Vehicle", []);
    (1, "LandVehicle", [0]);
    (2, "WaterVehicle", [0]);
    (3, "AmphibiousVehicle", [1; 2]);
    (4, "Fruit", []) ].

Definition classless_heap : heap :=
  foldl (λ h (c : ctor_call), RTTI_new c.1.1 c.1.2 c.2 h) ∅ classless_ctors.

(** Static initialisation over any list of [RTTI_DEFINE] lines, run in the
    order of the list; [static_heap] is the instance at the lines of the
    source. *)
Definition static_init (typeInfo : Class → addr)
    (lines : list (Class * list Class)) : heap :=
  foldl (λ h line, RTTI_DEFINE typeInfo line h) ∅ lines.

(** [b] is named in the base-class list of the declaration of [c]. *)
Definition direct_base (c b : Class) : Prop := b ∈ bases c.

(** One step of a query on the static hierarchy: unfold the call, settle the
    pointer comparison with [Hne] (different classes have different
    descriptors), read the descriptor with [Hlookup]. *)
Ltac static_query_step Hne Hlookup :=
  cbn [derivesFrom parents_loop];
  first [ rewrite decide_True by done
        | rewrite decide_False by (apply Hne; done) ];
  try (rewrite Hlookup; cbn [m_parents bases fmap list_fmap]).

(** ** The loop over the parents *)

Section parents_loop_facts.
Context (call : addr → outcome bool).
Implicit Types (ps : list addr) (p : addr) (b : bool).

Lemma parents_loop_true ps :
  parents_loop call ps = Returned true →
  ∃ p, p ∈ ps ∧ call p = Returned true.
Proof.
  induction ps as [|p ps IH]; simpl; [done|].
  destruct (call p) as [[]| |] eqn:Hp; try done.
  - intros _. exists p. split; [left | done].
  - intros [q [Hq Hc]]%IH. exists q. split; [by right | done].
Qed.

Lemma parents_loop_false ps :
  parents_loop call ps = Returned false ↔
  ∀ p, p ∈ ps → call p = Returned false.
Proof.
  induction ps as [|p ps IH]; simpl.
  - split; [|done]. intros _ p Hp. by apply elem_of_nil in Hp.
  - split.
    + destruct (call p) as [[]| |] eqn:Hp; try done.
      intros Hl q [->|Hq]%elem_of_cons; [done|]. by apply IH.
    + intros Hall. rewrite (Hall p); [|left].
      apply IH. intros q Hq. apply Hall. by right.
Qed.

Lemma parents_loop_returns ps :
  (∀ p, p ∈ ps → ∃ b, call p = Returned b) →
  ∃ b, parents_loop call ps = Returned b.
Proof.
  induction ps as [|p ps IH]; simpl; intros Hall; [by eexists|].
  destruct (Hall p) as [[] ->]; [left | by eexists |].
  apply IH. intros q Hq. apply Hall. by right.
Qed.

Lemma parents_loop_mono (call' : addr → outcome bool) ps b :
  (∀ p b', p ∈ ps → call p = Returned b' → call' p = Returned b') →
  parents_loop call ps = Returned b →
  parents_loop call' ps = Returned b.
Proof.
  induction ps as [|p ps IH]; simpl; [done|]. intros Hsub.
  destruct (call p) as [[]| |] eqn:Hp; try done.
  - rewrite (Hsub p true); [done | left | done].
  - rewrite (Hsub p false); [|left | done].
    apply IH. intros q b' Hq. apply Hsub. by right.
Qed.
End parents_loop_facts.

(** ** The ancestry query on an arbitrary store *)

Section derivesFrom_facts.
Context (h : heap).
Implicit Types (this r p q : addr) (fuel : nat) (b : bool).

Lemma derivesFrom_self fuel this :
  derivesFrom h (S fuel) this this = Returned true.
Proof. simpl. by rewrite decide_True. Qed.

(** A [true] answer is backed by a chain of parent edges. *)
Lemma derivesFrom_reach fuel this r :
  derivesFrom h fuel this r = Returned true →
  rtc (parent_edge h) this r.
Proof.
  revert this. induction fuel as [|fuel IH]; intros this; simpl; [done|].
  destruct (decide (this = r)) as [->|Hne]; [done|].
  destruct (h !! this) as [d|] eqn:Hd; [|done].
  intros [p [Hp Hc]]%parents_loop_true.
  apply rtc_l with p; [by exists d | by apply IH].
Qed.

(** A [false] answer excludes every chain of parent edges. *)
Lemma derivesFrom_unreach fuel this r :
  derivesFrom h fuel this r = Returned false →
  ¬ rtc (parent_edge h) this r.
Proof.
  revert this. induction fuel as [|fuel IH]; intros this; simpl; [done|].
  destruct (decide (this = r)) as [->|Hne]; [done|].
  destruct (h !! this) as [d|] eqn:Hd; [|done].
  intros Hall Hreach.
  apply rtc_inv in Hreach as [?|[p [[d' [Hd' Hp]] Hreach]]]; [done|].
  rewrite Hd in Hd'. injection Hd' as <-.
  eapply IH; [|done]. by eapply parents_loop_false in Hall.
Qed.

(** More budget never changes an answer already given. *)
Lemma derivesFrom_mono fuel fuel' this r b :
  fuel ≤ fuel' →
  derivesFrom h fuel this r = Returned b →
  derivesFrom h fuel' this r = Returned b.
Proof.
  revert fuel' this b.
  induction fuel as [|fuel IH]; intros fuel' this b Hle; simpl; [done|].
  destruct fuel' as [|fuel']; [lia|]. simpl.
  destruct (decide (this = r)); [done|].
  destruct (h !! this) as [d|]; [|done].
  apply parents_loop_mono. intros p b' _. apply IH. lia.
Qed.

Lemma derivesFrom_deterministic fuel fuel' this r b b' :
  derivesFrom h fuel this r = Returned b →
  derivesFrom h fuel' this r = Returned b' →
  b = b'.
Proof.
  intros H1 H2.
  apply (derivesFrom_mono _ (fuel `max` fuel')) in H1; [|lia].
  apply (derivesFrom_mono _ (fuel `max` fuel')) in H2; [|lia].
  congruence.
Qed.

Lemma parent_edge_is_Some p q : parent_edge h p q → is_Some (h !! p).
Proof. intros [d [Hd _]]. by exists d. Qed.

Lemma tc_parent_edge_is_Some p q : tc (parent_edge h) p q → is_Some (h !! p).
Proof. destruct 1; by eapply parent_edge_is_Some. Qed.

(** A duplicate-free list of live addresses is no longer than the store. *)
Lemma NoDup_live_length (l : list addr) :
  NoDup l → (∀ p, p ∈ l → is_Some (h !! p)) → length l ≤ size h.
Proof.
  intros Hnd Hlive.
  rewrite <-(size_dom (D := gset nat) h).
  unfold size at 1, set_size. simpl.
  apply submseteq_length, NoDup_submseteq; [done|].
  intros p Hp. apply elem_of_elements, elem_of_dom. by apply Hlive.
Qed.

(** On a closed acyclic store the query returns: the descriptors on the
    call stack are pairwise different, so the stack never gets deeper than
    the number of descriptors. *)
Lemma derivesFrom_returns_stack fuel (stack : list addr) this r :
  closed h → acyclic h →
  is_Some (h !! this) →
  NoDup stack →
  (∀ p, p ∈ stack → tc (parent_edge h) p this) →
  size h ≤ fuel + length stack →
  ∃ b, derivesFrom h fuel this r = Returned b.
Proof.
  intros Hcl Hac. revert stack this.
  induction fuel as [|fuel IH]; intros stack this Hthis Hnd Hstack Hsz.
  - assert (length (this :: stack) ≤ size h) as Hlen; [|simpl in *; lia].
    apply NoDup_live_length.
    + constructor; [|done]. intros Hin. by apply (Hac this), Hstack.
    + intros p [->|Hp]%elem_of_cons; [done|].
      by eapply tc_parent_edge_is_Some, Hstack.
  - simpl. destruct (decide (this = r)); [by eexists|].
    destruct Hthis as [d Hd]. rewrite Hd.
    apply parents_loop_returns. intros p Hp.
    assert (parent_edge h this p) as Hedge by by exists d.
    apply (IH (this :: stack)).
    + by eapply Hcl.
    + constructor; [|done]. intros Hin. by apply (Hac this), Hstack.
    + intros q [->|Hq]%elem_of_cons; [by apply tc_once|].
      eapply tc_r; [by apply Hstack | done].
    + simpl. lia.
Qed.

Lemma derivesFrom_returns fuel this r :
  closed h → acyclic h → is_Some (h !! this) → size h ≤ fuel →
  ∃ b, derivesFrom h fuel this r = Returned b.
Proof.
  intros Hcl Hac Hthis Hsz.
  apply (derivesFrom_returns_stack fuel []); try done.
  - constructor.
  - intros p Hp. by apply elem_of_nil in Hp.
  - simpl. lia.
Qed.

(** The query decides reachability along parent edges. *)
Lemma derivesFrom_true_iff fuel this r :
  closed h → acyclic h → is_Some (h !! this) → size h ≤ fuel →
  derivesFrom h fuel this r = Returned true ↔ rtc (parent_edge h) this r.
Proof.
  intros Hcl Hac Hthis Hsz. split; [apply derivesFrom_reach|].
  intros Hreach.
  destruct (derivesFrom_returns fuel this r) as [[] Hb]; try done.
  by apply derivesFrom_unreach in Hb.
Qed.

Lemma derivesFrom_false_iff fuel this r :
  closed h → acyclic h → is_Some (h !! this) → size h ≤ fuel →
  derivesFrom h fuel this r = Returned false ↔ ¬ rtc (parent_edge h) this r.
Proof.
  intros Hcl Hac Hthis Hsz. split; [apply derivesFrom_unreach|].
  intros Hreach.
  destruct (derivesFrom_returns fuel this r) as [[] Hb]; try done.
  by apply derivesFrom_reach in Hb.
Qed.
End derivesFrom_facts.

(** ** Construction histories *)

Section construction.
Implicit Types (h : heap) (this p q : addr).

Lemma parent_edge_empty p q : ¬ parent_edge ∅ p q.
Proof. intros [d [Hd _]]. by rewrite lookup_empty in Hd. Qed.

(** The edges of a store after one more constructor call. *)
Lemma parent_edge_new h this className parents p q :
  parent_edge (RTTI_new this className parents h) p q ↔
  (p = this ∧ q ∈ parents) ∨ (p ≠ this ∧ parent_edge h p q).
Proof.
  unfold parent_edge, RTTI_new. split.
  - intros [d [Hd Hq]]. destruct (decide (p = this)) as [->|Hne].
    + rewrite lookup_insert_eq in Hd. injection Hd as <-. by left.
    + rewrite lookup_insert_ne in Hd; [|done]. right. eauto.
  - intros [[-> Hq]|[Hne [d [Hd Hq]]]].
    + eexists. by rewrite lookup_insert_eq.
    + exists d. by rewrite lookup_insert_ne.
Qed.

Lemma constructible_closed h : constructible h → closed h.
Proof.
  induction 1 as [|h this className parents _ IH Hfresh Hps].
  - intros p q Hedge. by apply parent_edge_empty in Hedge.
  - intros p q [[-> Hq]|[Hne Hedge]]%parent_edge_new; unfold RTTI_new.
    + rewrite Forall_forall in Hps. apply lookup_insert_is_Some'. right. eauto.
    + apply lookup_insert_is_Some'. right. by eapply IH.
Qed.

(** Old descriptors cannot reach a descriptor constructed after them. *)
Lemma tc_parent_edge_old h this className parents p q :
  closed h → h !! this = None → p ≠ this →
  tc (parent_edge (RTTI_new this className parents h)) p q →
  tc (parent_edge h) p q ∧ q ≠ this.
Proof.
  intros Hcl Hfresh Hne Htc.
  assert (∀ x y, x ≠ this →
    parent_edge (RTTI_new this className parents h) x y →
    parent_edge h x y ∧ y ≠ this) as Hstep.
  { intros x y Hx [[-> _]|[_ Hedge]]%parent_edge_new; [done|].
    split; [done|]. intros ->. apply Hcl in Hedge as [d Hd]. congruence. }
  induction Htc as [x y Hxy|x y z Hxy _ IH].
  - destruct (Hstep x y) as [? ?]; [done..|]. split; [by apply tc_once|done].
  - destruct (Hstep x y) as [? ?]; [done..|].
    destruct IH as [? ?]; [done|]. split; [by eapply tc_l|done].
Qed.

Lemma constructible_acyclic h : constructible h → acyclic h.
Proof.
  induction 1 as [|h this className parents Hc IH Hfresh Hps].
  - intros p Htc. destruct Htc as [?? Hedge|??? Hedge _];
      by apply parent_edge_empty in Hedge.
  - pose proof (constructible_closed h Hc) as Hcl.
    rewrite Forall_forall in Hps.
    assert (∀ q, q ∈ parents → q ≠ this) as Hpne.
    { intros q [d Hd]%Hps ->. congruence. }
    intros p Htc. destruct (decide (p = this)) as [->|Hne].
    + inversion Htc as [?? Hedge|? q ? Hedge Hrest]; subst;
        apply parent_edge_new in Hedge as [[_ Hq]|[? _]]; try done.
      * by apply (Hpne this).
      * apply tc_parent_edge_old in Hrest as [_ ?]; [done..|].
        by apply Hpne.
    + apply tc_parent_edge_old in Htc as [Htc _]; [|done..].
      by apply (IH p).
Qed.

Lemma ctor_ok_spec h (c : ctor_call) :
  ctor_ok h c = true →
  h !! c.1.1 = None ∧ Forall (λ p, is_Some (h !! p)) c.2.
Proof.
  unfold ctor_ok. intros [Hf Hps]%andb_true_iff. split.
  - by apply bool_decide_eq_true in Hf.
  - apply Forall_forall. intros p Hp.
    rewrite forallb_forall in Hps.
    eapply bool_decide_eq_true, Hps. by apply list_elem_of_In.
Qed.

(** A run of constructor calls that passes the checks is a construction
    history. *)
Lemma run_ctors_constructible cs h h' :
  constructible h → run_ctors cs h = Some h' → constructible h'.
Proof.
  revert h. induction cs as [|c cs IH]; intros h Hc; simpl.
  - by intros [= <-].
  - destruct (ctor_ok h c) eqn:Hok; [|done].
    apply ctor_ok_spec in Hok as [Hfresh Hps].
    apply IH. by constructor.
Qed.
End construction.

(** ** Names play no part in the query *)

Lemma parents_loop_ext (call call' : addr → outcome bool) (ps : list addr) :
  (∀ p, call p = call' p) → parents_loop call ps = parents_loop call' ps.
Proof.
  intros Heq. induction ps as [|p ps IH]; simpl; [done|].
  rewrite <-Heq. by destruct (call p) as [[]| |].
Qed.

Lemma derivesFrom_ext_parents (h1 h2 : heap) (fuel : nat) (this r : addr) :
  (∀ p, m_parents <$> h1 !! p = m_parents <$> h2 !! p) →
  derivesFrom h1 fuel this r = derivesFrom h2 fuel this r.
Proof.
  intros Heq. revert this. induction fuel as [|fuel IH]; intros this; simpl; [done|].
  destruct (decide (this = r)); [done|].
  specialize (Heq this).
  destruct (h1 !! this) as [d1|], (h2 !! this) as [d2|]; simpl in Heq; try done.
  injection Heq as ->. by apply parents_loop_ext.
Qed.

(** ** The memoized query against the plain one *)

Section memo_facts.
Context (h : heap) (r : addr).

Lemma table_sound_empty : table_sound h r ∅.
Proof. intros p b Hp. by rewrite lookup_empty in Hp. Qed.

Lemma parents_loop_memo_agrees fuel (ps : list addr) b (cache : memo_table) :
  (∀ p b' c, derivesFrom h fuel p r = Returned b' → table_sound h r c →
     ∃ c', derivesFrom_memo h fuel p r c = Returned (b', c') ∧ table_sound h r c') →
  parents_loop (λ p, derivesFrom h fuel p r) ps = Returned b →
  table_sound h r cache →
  ∃ cache',
    parents_loop_memo (λ p c, derivesFrom_memo h fuel p r c) ps cache
      = Returned (b, cache') ∧ table_sound h r cache'.
Proof.
  intros Hcall. revert cache.
  induction ps as [|p ps IH]; intros cache; simpl.
  - intros [= <-] Hok. by exists cache.
  - destruct (derivesFrom h fuel p r) as [bp| |] eqn:Hp; try done.
    intros Hrest Hok.
    destruct (Hcall p bp cache Hp Hok) as [c' [-> Hok']].
    destruct bp.
    + injection Hrest as <-. by exists c'.
    + by apply IH.
Qed.

Lemma derivesFrom_memo_agrees fuel this b (cache : memo_table) :
  derivesFrom h fuel this r = Returned b →
  table_sound h r cache →
  ∃ cache',
    derivesFrom_memo h fuel this r cache = Returned (b, cache')
    ∧ table_sound h r cache'.
Proof.
  revert this b cache.
  induction fuel as [|fuel IH]; intros this b cache Hplain Hok; [done|].
  pose proof Hplain as Hplain'. simpl in Hplain |- *.
  destruct (decide (this = r)) as [->|Hne].
  - injection Hplain as <-. by exists cache.
  - destruct (cache !! this) as [b0|] eqn:Hhit.
    + destruct (Hok this b0 Hhit) as [fuel0 Hb0].
      rewrite (derivesFrom_deterministic h _ _ _ _ _ _ Hb0 Hplain').
      by exists cache.
    + destruct (h !! this) as [d|] eqn:Hd; [|done].
      destruct (parents_loop_memo_agrees fuel (m_parents d) b cache IH Hplain Hok)
        as [c' [-> Hok']].
      eexists. split; [done|].
      intros p bp. destruct (decide (this = p)) as [<-|Hp].
      * rewrite lookup_insert_eq. intros [= <-]. by eexists.
      * rewrite lookup_insert_ne; [|done]. apply Hok'.
Qed.

Lemma derivesFrom_memoized_agrees fuel this b :
  derivesFrom h fuel this r = Returned b →
  derivesFrom_memoized h fuel this r = Returned b.
Proof.
  intros Hplain. unfold derivesFrom_memoized.
  by destruct (derivesFrom_memo_agrees fuel this b ∅ Hplain table_sound_empty)
    as [c' [-> _]].
Qed.
End memo_facts.

(** ** The statically bound hierarchy *)

Section static_facts.
Context (typeInfo : Class → addr) (Hinj : Inj (=) (=) typeInfo).

(** After static initialisation the descriptor of every class carries the
    class's name and lists the descriptors of its direct bases, in the
    order of the base-class list. *)
Lemma static_heap_lookup (c : Class) :
  static_heap typeInfo !! typeInfo c
  = Some (mkRTTI (stringify c) (typeInfo <$> bases c)).
Proof.
  assert (∀ c1 c2, c1 ≠ c2 → typeInfo c1 ≠ typeInfo c2) as Hne.
  { intros c1 c2 Hc Heq. by apply Hc, Hinj. }
  unfold static_heap, RTTI_DEFINE, RTTI_new. simpl.
  destruct c; simpl;
    repeat (rewrite lookup_insert_ne; [|by apply Hne]);
    by rewrite lookup_insert_eq.
Qed.

Lemma static_heap_run :
  run_ctors (static_ctors typeInfo) ∅ = Some (static_heap typeInfo).
Proof.
  assert (∀ c1 c2, c1 ≠ c2 → typeInfo c1 ≠ typeInfo c2) as Hne.
  { intros c1 c2 Hc Heq. by apply Hc, Hinj. }
  unfold static_ctors, static_heap, RTTI_DEFINE. simpl.
  unfold ctor_ok, RTTI_new. simpl.
  repeat (rewrite bool_decide_eq_true_2;
    [|repeat (rewrite lookup_insert_ne; [|by apply Hne]);
      first [apply lookup_empty | rewrite lookup_insert_eq; by eexists]]).
  done.
Qed.

Lemma static_heap_constructible : constructible (static_heap typeInfo).
Proof.
  eapply run_ctors_constructible; [constructor | apply static_heap_run].
Qed.
End static_facts.

Lemma typeInfo_layout_inj : Inj (=) (=) typeInfo_layout.
Proof. intros [] [] Heq; done. Qed.

Lemma classless_heap_run : run_ctors classless_ctors ∅ = Some classless_heap.
Proof. vm_compute. reflexivity. Qed.

Lemma classless_heap_constructible : constructible classless_heap.
Proof.
  eapply run_ctors_constructible; [constructor | apply classless_heap_run].
Qed.

(** The assertions of [classlessRTTITest], by evaluation. *)
Example classlessRTTITest_asserts :
  getClassName <$> classless_heap !! 0 = Some "Vehicle"
  ∧ derivesFrom classless_heap 5 1 0 = Returned true
  ∧ derivesFrom classless_heap 5 1 4 = Returned false
  ∧ derivesFrom classless_heap 5 1 2 = Returned false
  ∧ derivesFrom classless_heap 5 3 1 = Returned true
  ∧ derivesFrom classless_heap 5 3 0 = Returned true
  ∧ derivesFrom classless_heap 5 3 4 = Returned false.
Proof. vm_compute. repeat split. Qed.

(** The memoized query on the diamond of the same test: the second path to
    [Vehicle] is answered from the table. *)
Example classless_memo_table :
  derivesFrom_memo classless_heap 5 3 4 ∅
  = Returned (false, {[ 0 := false; 1 := false; 2 := false; 3 := false ]}).
Proof. vm_compute. reflexivity. Qed.

(** ** Properties of the specification *)

(** C1.  On a closed acyclic descriptor graph, a query on a descriptor [A]
    about [B] returns, and it returns [true] exactly when [B] is reachable
    from [A] by zero or more parent edges.  In particular a descriptor
    derives from itself, and a descriptor with an empty parent list derives
    from no other descriptor.  [B] need not be a descriptor of the graph:
    the code compares its address and never reads it. *)
Theorem derivesFrom_iff_reachable (h : heap) (fuel : nat) (A B : addr) :
  closed h → acyclic h → is_Some (h !! A) → size h ≤ fuel →
  (∃ b, derivesFrom h fuel A B = Returned b
        ∧ (b = true ↔ rtc (parent_edge h) A B))
  ∧ derivesFrom h fuel A A = Returned true
  ∧ (∀ d, h !! A = Some d → m_parents d = [] → A ≠ B →
       derivesFrom h fuel A B = Returned false).
Proof.
  intros Hcl Hac HA Hsz. split; [|split].
  - destruct (derivesFrom_returns h fuel A B) as [b Hb]; [done..|].
    exists b. split; [done|]. destruct b.
    + split; [|done]. intros _. by eapply derivesFrom_reach.
    + split; [done|]. intros Hreach. by apply derivesFrom_unreach in Hb.
  - by apply derivesFrom_true_iff.
  - intros d Hd Hnil Hne. apply derivesFrom_false_iff; [done..|].
    intros [?|[p [[d' [Hd' Hp]] _]]]%rtc_inv; [done|].
    rewrite Hd in Hd'. injection Hd' as <-. rewrite Hnil in Hp.
    by apply elem_of_nil in Hp.
Qed.

Lemma derivesFrom_iff_reachable_witness :
  (∃ b, derivesFrom classless_heap 5 3 0 = Returned b
        ∧ (b = true ↔ rtc (parent_edge classless_heap) 3 0))
  ∧ derivesFrom classless_heap 5 3 3 = Returned true
  ∧ (∀ d, classless_heap !! 3 = Some d → m_parents d = [] → 3 ≠ 0 →
       derivesFrom classless_heap 5 3 0 = Returned false).
Proof.
  apply (derivesFrom_iff_reachable classless_heap 5 3 0).
  - apply constructible_closed, classless_heap_constructible.
  - apply constructible_acyclic, classless_heap_constructible.
  - vm_compute. by eexists.
  - vm_compute. lia.
Defined.

(** C2.  On a store built by constructor calls whose parent lists name only
    descriptors constructed before, a query on any descriptor of the store
    about any address returns a boolean: it neither runs forever nor reads
    an address without a descriptor.  A budget of as many nested calls as
    there are descriptors is enough. *)
Theorem derivesFrom_total (h : heap) (fuel : nat) (this r : addr) :
  constructible h → is_Some (h !! this) → size h ≤ fuel →
  ∃ b, derivesFrom h fuel this r = Returned b.
Proof.
  intros Hc Hthis Hsz. apply derivesFrom_returns; try done.
  - by apply constructible_closed.
  - by apply constructible_acyclic.
Qed.

Lemma derivesFrom_total_witness :
  ∃ b, derivesFrom classless_heap 5 3 4 = Returned b.
Proof.
  apply (derivesFrom_total classless_heap 5 3 4).
  - apply classless_heap_constructible.
  - vm_compute. by eexists.
  - vm_compute. lia.
Defined.

(** C3.  A store built by constructor calls, each at a fresh address and with
    a parent list naming only descriptors constructed before, has an acyclic
    parent graph: no descriptor reaches itself by one or more parent edges.
    A further constructor call leaves the descriptors already there, and so
    their parent lists, as they are. *)
Theorem constructible_no_cycle (h : heap) :
  constructible h →
  (∀ p, ¬ tc (parent_edge h) p p)
  ∧ (∀ this className parents p d,
       h !! this = None → h !! p = Some d →
       RTTI_new this className parents h !! p = Some d).
Proof.
  intros Hc. split; [by apply constructible_acyclic|].
  intros this className parents p d Hfresh Hp. unfold RTTI_new.
  rewrite lookup_insert_ne; [done|]. intros ->. congruence.
Qed.

Lemma constructible_no_cycle_witness :
  (∀ p, ¬ tc (parent_edge classless_heap) p p)
  ∧ (∀ this className parents p d,
       classless_heap !! this = None → classless_heap !! p = Some d →
       RTTI_new this className parents classless_heap !! p = Some d).
Proof.
  apply (constructible_no_cycle classless_heap).
  apply classless_heap_constructible.
Defined.

(** C4.  On a closed acyclic descriptor graph the query is transitive: if
    [A] derives from [B] and [B] derives from [C], then [A] derives from
    [C]. *)
Theorem derivesFrom_transitive (h : heap) (fuel : nat) (A B C : addr) :
  closed h → acyclic h → is_Some (h !! A) → size h ≤ fuel →
  derivesFrom h fuel A B = Returned true →
  derivesFrom h fuel B C = Returned true →
  derivesFrom h fuel A C = Returned true.
Proof.
  intros Hcl Hac HA Hsz HAB HBC. apply derivesFrom_true_iff; [done..|].
  eapply rtc_trans; by eapply derivesFrom_reach.
Qed.

Lemma derivesFrom_transitive_witness :
  derivesFrom classless_heap 5 3 1 = Returned true
  ∧ derivesFrom classless_heap 5 1 0 = Returned true
  ∧ derivesFrom classless_heap 5 3 0 = Returned true.
Proof.
  split; [vm_compute; reflexivity|]. split; [vm_compute; reflexivity|].
  apply (derivesFrom_transitive classless_heap 5 3 1 0).
  - apply constructible_closed, classless_heap_constructible.
  - apply constructible_acyclic, classless_heap_constructible.
  - vm_compute. by eexists.
  - vm_compute. lia.
  - vm_compute. reflexivity.
  - vm_compute. reflexivity.
Defined.

(** C5.  On a closed acyclic descriptor graph the query is antisymmetric: two
    descriptors that derive from each other are the same descriptor; put the
    other way, if [A] derives from [B] and they are different descriptors,
    the query on [B] about [A] returns [false]. *)
Theorem derivesFrom_antisymmetric (h : heap) (fuel : nat) (A B : addr) :
  closed h → acyclic h → is_Some (h !! A) → is_Some (h !! B) → size h ≤ fuel →
  (derivesFrom h fuel A B = Returned true →
   derivesFrom h fuel B A = Returned true → A = B)
  ∧ (derivesFrom h fuel A B = Returned true → A ≠ B →
     derivesFrom h fuel B A = Returned false).
Proof.
  intros Hcl Hac HA HB Hsz.
  assert (rtc (parent_edge h) A B → rtc (parent_edge h) B A → A = B) as Hanti.
  { intros [?|HAB]%rtc_tc [?|HBA]%rtc_tc; try done.
    destruct (Hac A). by eapply tc_transitive. }
  split.
  - intros HAB HBA. apply Hanti; by eapply derivesFrom_reach.
  - intros HAB Hne. apply derivesFrom_false_iff; [done..|].
    intros HBA. apply Hne, Hanti; [|done]. by eapply derivesFrom_reach.
Qed.

Lemma derivesFrom_antisymmetric_witness :
  (derivesFrom classless_heap 5 3 0 = Returned true →
   derivesFrom classless_heap 5 0 3 = Returned true → 3 = 0)
  ∧ (derivesFrom classless_heap 5 3 0 = Returned true → 3 ≠ 0 →
     derivesFrom classless_heap 5 0 3 = Returned false).
Proof.
  apply (derivesFrom_antisymmetric classless_heap 5 3 0).
  - apply constructible_closed, classless_heap_constructible.
  - apply constructible_acyclic, classless_heap_constructible.
  - vm_compute. by eexists.
  - vm_compute. by eexists.
  - vm_compute. lia.
Defined.

(** C6.  Diamond inheritance: whenever a store holds a root [R] without
    parents, [A] and [B] with the parent list [[R]] each, and a leaf [L] with
    the parent list [[A; B]], the query on [L] about [R] returns [true].  The
    rest of the store does not matter, and three nested calls are enough. *)
Theorem derivesFrom_diamond (h : heap) (fuel : nat) (R A B L : addr)
    (nR nA nB nL : string) :
  h !! R = Some (mkRTTI nR []) →
  h !! A = Some (mkRTTI nA [R]) →
  h !! B = Some (mkRTTI nB [R]) →
  h !! L = Some (mkRTTI nL [A; B]) →
  3 ≤ fuel →
  derivesFrom h fuel L R = Returned true.
Proof.
  intros HR HA HB HL Hfuel.
  destruct fuel as [|[|[|fuel]]]; [lia..|]. simpl.
  destruct (decide (L = R)); [done|]. rewrite HL. simpl.
  destruct (decide (A = R)); [done|]. rewrite HA. simpl.
  by rewrite decide_True.
Qed.

Lemma derivesFrom_diamond_witness :
  derivesFrom classless_heap 3 3 0 = Returned true.
Proof.
  apply (derivesFrom_diamond classless_heap 3 0 1 2 3
           "Vehicle" "LandVehicle" "WaterVehicle" "AmphibiousVehicle").
  - vm_compute. reflexivity.
  - vm_compute. reflexivity.
  - vm_compute. reflexivity.
  - vm_compute. reflexivity.
  - lia.
Defined.

(** C7.  The statically bound demo hierarchy.  Wherever the five static
    descriptors are placed, [getTypeInfo] called through a pointer returns
    the descriptor of the class the instance was created as; for the
    instances of the test held through [StaffMember*] that is the descriptor
    of [Librarian], [Teacher] and [TeachingLibrarian], not the one of
    [StaffMember].  The descriptor of [staff] carries the name
    ["StaffMember"], and the six queries of the test give the expected
    answers. *)
Theorem classful_hierarchy (typeInfo : Class → addr) (fuel : nat) :
  Inj (=) (=) typeInfo → 3 ≤ fuel →
  (∀ p, getTypeInfo typeInfo p = typeInfo (dynamic_type p))
  ∧ (static_type librarian = StaffMember
     ∧ getTypeInfo typeInfo librarian = typeInfo Librarian
     ∧ getTypeInfo typeInfo librarian ≠ static_typeInfo typeInfo librarian)
  ∧ (static_type teacher = StaffMember
     ∧ getTypeInfo typeInfo teacher = typeInfo Teacher
     ∧ getTypeInfo typeInfo teacher ≠ static_typeInfo typeInfo teacher)
  ∧ (static_type teachingLibrarian = StaffMember
     ∧ getTypeInfo typeInfo teachingLibrarian = typeInfo TeachingLibrarian
     ∧ getTypeInfo typeInfo teachingLibrarian ≠ static_typeInfo typeInfo teachingLibrarian)
  ∧ getClassName <$> static_heap typeInfo !! getTypeInfo typeInfo staff
    = Some "StaffMember"
  ∧ derivesFrom (static_heap typeInfo) fuel
      (getTypeInfo typeInfo librarian) (getTypeInfo typeInfo staff)
    = Returned true
  ∧ derivesFrom (static_heap typeInfo) fuel
      (getTypeInfo typeInfo librarian) (typeInfo StaffMember)
    = Returned true
  ∧ derivesFrom (static_heap typeInfo) fuel
      (getTypeInfo typeInfo librarian) (getTypeInfo typeInfo sailboat)
    = Returned false
  ∧ derivesFrom (static_heap typeInfo) fuel
      (getTypeInfo typeInfo librarian) (getTypeInfo typeInfo teacher)
    = Returned false
  ∧ derivesFrom (static_heap typeInfo) fuel
      (getTypeInfo typeInfo teachingLibrarian) (getTypeInfo typeInfo librarian)
    = Returned true
  ∧ derivesFrom (static_heap typeInfo) fuel
      (getTypeInfo typeInfo teachingLibrarian) (getTypeInfo typeInfo staff)
    = Returned true
  ∧ derivesFrom (static_heap typeInfo) fuel
      (getTypeInfo typeInfo teachingLibrarian) (getTypeInfo typeInfo sailboat)
    = Returned false.
Proof.
  intros Hinj Hfuel.
  assert (∀ c1 c2, c1 ≠ c2 → typeInfo c1 ≠ typeInfo c2) as Hne.
  { intros c1 c2 Hc Heq. by apply Hc, Hinj. }
  destruct fuel as [|[|[|fuel]]]; [lia..|].
  unfold getTypeInfo, static_typeInfo, RTTI_DECLARE.
  simpl dynamic_type. simpl static_type.
  split; [done|].
  do 3 (split; [split; [done|split; [done|by apply Hne]]|]).
  split; [by rewrite (static_heap_lookup _ Hinj)|].
  pose proof (static_heap_lookup _ Hinj) as Hlookup.
  repeat split; by repeat static_query_step Hne Hlookup.
Qed.

Lemma classful_hierarchy_witness :
  derivesFrom (static_heap typeInfo_layout) 3
    (getTypeInfo typeInfo_layout teachingLibrarian)
    (getTypeInfo typeInfo_layout staff) = Returned true
  ∧ derivesFrom (static_heap typeInfo_layout) 3
      (getTypeInfo typeInfo_layout librarian)
      (getTypeInfo typeInfo_layout teacher) = Returned false.
Proof.
  pose proof (classful_hierarchy typeInfo_layout 3 typeInfo_layout_inj) as H.
  split; apply H; lia.
Defined.

(** C8.  The memoized query gives the same boolean as the plain depth-first
    query: on a closed acyclic descriptor graph both return, and they return
    the same value. *)
Theorem derivesFrom_memoized_equal (h : heap) (fuel : nat) (A B : addr) :
  closed h → acyclic h → is_Some (h !! A) → size h ≤ fuel →
  ∃ b, derivesFrom h fuel A B = Returned b
       ∧ derivesFrom_memoized h fuel A B = Returned b.
Proof.
  intros Hcl Hac HA Hsz.
  destruct (derivesFrom_returns h fuel A B) as [b Hb]; [done..|].
  exists b. split; [done|]. by apply derivesFrom_memoized_agrees.
Qed.

Lemma derivesFrom_memoized_equal_witness :
  ∃ b, derivesFrom classless_heap 5 3 4 = Returned b
       ∧ derivesFrom_memoized classless_heap 5 3 4 = Returned b.
Proof.
  apply (derivesFrom_memoized_equal classless_heap 5 3 4).
  - apply constructible_closed, classless_heap_constructible.
  - apply constructible_acyclic, classless_heap_constructible.
  - vm_compute. by eexists.
  - vm_compute. lia.
Defined.

(** C9.  Identity is the address, not the name: two different descriptors
    with the same name and no parents do not derive from each other. *)
Theorem derivesFrom_same_name_distinct (h : heap) (fuel : nat) (A B : addr)
    (name : string) :
  A ≠ B →
  h !! A = Some (mkRTTI name []) →
  h !! B = Some (mkRTTI name []) →
  1 ≤ fuel →
  derivesFrom h fuel A B = Returned false
  ∧ derivesFrom h fuel B A = Returned false.
Proof.
  intros Hne HA HB Hfuel. destruct fuel as [|fuel]; [lia|]. simpl.
  rewrite !decide_False by done. by rewrite HA, HB.
Qed.

Lemma derivesFrom_same_name_distinct_witness :
  derivesFrom (RTTI_new 8 "Twin" [] (RTTI_new 7 "Twin" [] ∅)) 1 7 8
    = Returned false
  ∧ derivesFrom (RTTI_new 8 "Twin" [] (RTTI_new 7 "Twin" [] ∅)) 1 8 7
    = Returned false.
Proof.
  apply (derivesFrom_same_name_distinct
           (RTTI_new 8 "Twin" [] (RTTI_new 7 "Twin" [] ∅)) 1 7 8 "Twin").
  - lia.
  - vm_compute. reflexivity.
  - vm_compute. reflexivity.
  - lia.
Defined.

(** C10.  The constructor accepts the empty string as a name like any other:
    the constructed descriptor is in the store, [getClassName] gives back the
    empty string, the parent list is the one passed, and every query on the
    resulting store answers as it would had the descriptor been given any
    other name. *)
Theorem RTTI_new_empty_name (h : heap) (this : addr) (parents : list addr) :
  (∃ d, RTTI_new this "" parents h !! this = Some d
        ∧ getClassName d = ""
        ∧ m_parents d = parents)
  ∧ (∀ name fuel p r,
       derivesFrom (RTTI_new this "" parents h) fuel p r
       = derivesFrom (RTTI_new this name parents h) fuel p r).
Proof.
  split.
  - eexists. unfold RTTI_new. by rewrite lookup_insert_eq.
  - intros name fuel p r. apply derivesFrom_ext_parents. intros q.
    unfold RTTI_new. destruct (decide (this = q)) as [<-|Hne].
    + by rewrite !lookup_insert_eq.
    + by rewrite !lookup_insert_ne.
Qed.

(** ** Further properties of the ancestry query *)

Lemma parents_loop_BadDeref (call : addr → outcome bool) (ps : list addr) :
  parents_loop call ps = BadDeref → ∃ p, p ∈ ps ∧ call p = BadDeref.
Proof.
  induction ps as [|p ps IH]; simpl; [done|].
  destruct (call p) as [[]| |] eqn:Hp; try done.
  - intros [q [Hq Hc]]%IH. exists q. split; [by right | done].
  - intros _. exists p. split; [left | done].
Qed.

Lemma parents_loop_ext_in (call call' : addr → outcome bool) (ps : list addr) :
  (∀ p, p ∈ ps → call p = call' p) →
  parents_loop call ps = parents_loop call' ps.
Proof.
  induction ps as [|p ps IH]; simpl; intros Heq; [done|].
  rewrite <-(Heq p); [|left].
  destruct (call p) as [[]| |]; try done.
  apply IH. intros q Hq. apply Heq. by right.
Qed.

(** The loop returns [true] exactly when some parent answers [true] and all
    parents before it have answered [false]. *)
Lemma parents_loop_true_split (call : addr → outcome bool) (ps : list addr) :
  parents_loop call ps = Returned true ↔
  ∃ ps1 p ps2, ps = ps1 ++ p :: ps2
    ∧ Forall (λ q, call q = Returned false) ps1
    ∧ call p = Returned true.
Proof.
  induction ps as [|p ps IH]; simpl.
  - split; [done|]. intros (ps1 & q & ps2 & Heq & _). by destruct ps1.
  - split.
    + destruct (call p) as [[]| |] eqn:Hp; try done.
      * intros _. by exists [], p, ps.
      * intros (ps1 & q & ps2 & -> & Hall & Hq)%IH.
        exists (p :: ps1), q, ps2. split; [done|]. split; [|done].
        by constructor.
    + intros (ps1 & q & ps2 & Heq & Hall & Hq).
      destruct ps1 as [|p1 ps1]; simpl in Heq; injection Heq as -> ->.
      * by rewrite Hq.
      * apply Forall_cons in Hall as [-> Hall]. apply IH. by exists ps1, q, ps2.
Qed.

(** X1.  Whatever the store holds, cycles and dangling parent pointers
    included, an answer the query gives is right: it is [true] exactly when
    the target is reachable along parent edges. *)
Theorem derivesFrom_answer_sound (h : heap) (fuel : nat) (this r : addr)
    (b : bool) :
  derivesFrom h fuel this r = Returned b →
  (b = true ↔ rtc (parent_edge h) this r).
Proof.
  intros Hb. destruct b.
  - split; [|done]. intros _. by eapply derivesFrom_reach.
  - split; [done|]. intros Hreach. by apply derivesFrom_unreach in Hb.
Qed.

Lemma derivesFrom_answer_sound_witness :
  derivesFrom (RTTI_new 7 "A" [8; 7] ∅) 2 7 8 = Returned true
  ∧ (true = true ↔ rtc (parent_edge (RTTI_new 7 "A" [8; 7] ∅)) 7 8).
Proof.
  split; [vm_compute; reflexivity|].
  apply (derivesFrom_answer_sound (RTTI_new 7 "A" [8; 7] ∅) 2 7 8 true).
  vm_compute. reflexivity.
Defined.

(** X2.  One call, as the body of [derivesFrom] reads.  It returns [true]
    exactly when the two addresses are equal, or the parent list splits into
    parents that all answer [false], then one that answers [true]; the
    parents after that one are not queried.  It returns [false] exactly when
    the addresses differ and every parent answers [false]. *)
Theorem derivesFrom_call (h : heap) (fuel : nat) (this r : addr) :
  (derivesFrom h (S fuel) this r = Returned true ↔
     this = r
     ∨ ∃ d ps1 p ps2,
         h !! this = Some d
         ∧ m_parents d = ps1 ++ p :: ps2
         ∧ Forall (λ q, derivesFrom h fuel q r = Returned false) ps1
         ∧ derivesFrom h fuel p r = Returned true)
  ∧ (derivesFrom h (S fuel) this r = Returned false ↔
       this ≠ r
       ∧ ∃ d, h !! this = Some d
              ∧ Forall (λ q, derivesFrom h fuel q r = Returned false)
                  (m_parents d)).
Proof.
  simpl. destruct (decide (this = r)) as [->|Hne].
  - split; split; try done; [by left | by intros [? _]].
  - destruct (h !! this) as [d|] eqn:Hd.
    + split.
      * rewrite parents_loop_true_split. split.
        -- intros (ps1 & p & ps2 & ? & ? & ?). right. by exists d, ps1, p, ps2.
        -- intros [?|(d' & ps1 & p & ps2 & [= <-] & ? & ? & ?)]; [done|].
           by exists ps1, p, ps2.
      * rewrite parents_loop_false. split.
        -- intros Hall. split; [done|]. exists d. split; [done|].
           by apply Forall_forall.
        -- intros [_ (d' & [= <-] & Hall)]. by apply Forall_forall.
    + split; split; try done.
      * by intros [?|(d' & ? & ? & ? & ? & _)].
      * by intros [_ (d' & ? & _)].
Qed.

Lemma derivesFrom_BadDeref_reach (h : heap) (fuel : nat) (this r : addr) :
  derivesFrom h fuel this r = BadDeref →
  ∃ q, rtc (parent_edge h) this q ∧ h !! q = None ∧ q ≠ r.
Proof.
  revert this. induction fuel as [|fuel IH]; intros this; simpl; [done|].
  destruct (decide (this = r)) as [->|Hne]; [done|].
  destruct (h !! this) as [d|] eqn:Hd.
  - intros [p [Hp (q & Hq & Hnone & Hqr)%IH]]%parents_loop_BadDeref.
    exists q. split; [|done]. apply rtc_l with p; [by exists d | done].
  - intros _. by exists this.
Qed.

Lemma derivesFrom_closed_safe (h : heap) (fuel : nat) (this r : addr) :
  closed h → is_Some (h !! this) → derivesFrom h fuel this r ≠ BadDeref.
Proof.
  intros Hcl Hthis (q & Hreach & Hnone & _)%derivesFrom_BadDeref_reach.
  apply rtc_inv_r in Hreach as [->|(p & _ & Hedge)].
  - destruct Hthis. congruence.
  - apply Hcl in Hedge as [d Hd]. congruence.
Qed.

(** X3.  A call that ends by reading an address without a descriptor has
    reached, along parent edges, such an address other than the target; on a
    closed store a call on a descriptor never does so. *)
Theorem derivesFrom_BadDeref (h : heap) (fuel : nat) (this r : addr) :
  (derivesFrom h fuel this r = BadDeref →
     ∃ q, rtc (parent_edge h) this q ∧ h !! q = None ∧ q ≠ r)
  ∧ (closed h → is_Some (h !! this) →
     derivesFrom h fuel this r ≠ BadDeref).
Proof.
  split; [apply derivesFrom_BadDeref_reach | apply derivesFrom_closed_safe].
Qed.

Example derivesFrom_dangling_parent :
  derivesFrom (RTTI_new 1 "A" [2] ∅) 2 1 3 = BadDeref.
Proof. vm_compute. reflexivity. Qed.

(** ** Cycles *)

(** A [false] answer passes down every parent edge with a smaller budget. *)
Lemma derivesFrom_false_tc (h : heap) (r p q : addr) :
  tc (parent_edge h) p q →
  ∀ fuel, derivesFrom h fuel p r = Returned false →
  ∃ fuel', fuel' < fuel ∧ derivesFrom h fuel' q r = Returned false.
Proof.
  assert (∀ x y fuel, parent_edge h x y →
    derivesFrom h fuel x r = Returned false →
    ∃ fuel', fuel' < fuel ∧ derivesFrom h fuel' y r = Returned false) as Hstep.
  { intros x y [|fuel] [d [Hd Hy]]; simpl; [done|].
    destruct (decide (x = r)); [done|]. rewrite Hd.
    intros Hall. exists fuel. split; [lia|].
    by eapply parents_loop_false in Hall. }
  induction 1 as [x y Hxy|x y z Hxy _ IH]; intros fuel Hfalse.
  - by eapply Hstep.
  - destruct (Hstep x y fuel Hxy Hfalse) as (f1 & Hlt1 & Hf1).
    destruct (IH f1 Hf1) as (f2 & Hlt2 & Hf2).
    exists f2. split; [lia | done].
Qed.

Lemma derivesFrom_cycle_not_false (h : heap) (r q : addr) (fuel : nat) :
  tc (parent_edge h) q q → derivesFrom h fuel q r ≠ Returned false.
Proof.
  intros Hcycle. induction (lt_wf fuel) as [fuel _ IH]. intros Hfalse.
  destruct (derivesFrom_false_tc h r q q Hcycle fuel Hfalse) as (f & Hlt & Hf).
  by apply (IH f).
Qed.

(** X4.  The query has no cycle detection.  From a descriptor that reaches a
    cycle of parent edges, it never answers [false]; if the store is closed
    and the target is not reachable, the call does not return at all,
    whatever the recursion budget. *)
Theorem derivesFrom_cycle_diverges (h : heap) (this q r : addr) (fuel : nat) :
  rtc (parent_edge h) this q → tc (parent_edge h) q q →
  derivesFrom h fuel this r ≠ Returned false
  ∧ (closed h → is_Some (h !! this) → ¬ rtc (parent_edge h) this r →
     derivesFrom h fuel this r = OutOfFuel).
Proof.
  intros Hreach Hcycle.
  assert (derivesFrom h fuel this r ≠ Returned false) as Hnf.
  { intros Hfalse. apply rtc_tc in Hreach as [->|Htc].
    - by apply (derivesFrom_cycle_not_false h r q fuel).
    - destruct (derivesFrom_false_tc h r this q Htc fuel Hfalse) as (f & _ & Hf).
      by apply (derivesFrom_cycle_not_false h r q f). }
  split; [done|]. intros Hcl Hthis Hunreach.
  destruct (derivesFrom h fuel this r) as [[]| |] eqn:Hres; try done.
  - by apply derivesFrom_reach in Hres.
  - by apply derivesFrom_closed_safe in Hres.
Qed.

Lemma derivesFrom_cycle_diverges_witness :
  derivesFrom (RTTI_new 7 "A" [7] ∅) 100 7 8 ≠ Returned false
  ∧ (closed (RTTI_new 7 "A" [7] ∅) →
     is_Some (RTTI_new 7 "A" [7] ∅ !! 7) →
     ¬ rtc (parent_edge (RTTI_new 7 "A" [7] ∅)) 7 8 →
     derivesFrom (RTTI_new 7 "A" [7] ∅) 100 7 8 = OutOfFuel).
Proof.
  apply (derivesFrom_cycle_diverges (RTTI_new 7 "A" [7] ∅) 7 7 8 100).
  - apply rtc_refl.
  - apply tc_once. eexists. split; [vm_compute; reflexivity|]. simpl. left.
Defined.

(** The self-parented descriptor [RTTI a("A", { &a })] in numbers: the query
    about another address is still running after any number of calls. *)
Example derivesFrom_self_parent_runs_on :
  derivesFrom (RTTI_new 7 "A" [7] ∅) 100 7 8 = OutOfFuel.
Proof. vm_compute. reflexivity. Qed.

(** ** Order of the parent list, and later constructions *)

Lemma tc_parent_edge_equiv (h1 h2 : heap) (p q : addr) :
  (∀ x y, parent_edge h1 x y → parent_edge h2 x y) →
  tc (parent_edge h1) p q → tc (parent_edge h2) p q.
Proof.
  intros Hsub. induction 1 as [x y Hxy|x y z Hxy _ IH].
  - by apply tc_once, Hsub.
  - eapply tc_l; [by apply Hsub | done].
Qed.

Lemma same_live_size (h1 h2 : heap) :
  (∀ p, is_Some (h1 !! p) ↔ is_Some (h2 !! p)) → size h1 = size h2.
Proof.
  intros Hlive.
  rewrite <-(size_dom (D := gset nat) h1), <-(size_dom (D := gset nat) h2).
  f_equal. apply set_eq. intros p. by rewrite !elem_of_dom.
Qed.

(** X5.  On a closed acyclic store the answer depends on which descriptors
    a parent list names, not on their order or on repetitions: two stores
    with the same descriptors and, for each, the same set of parents, answer
    every query alike. *)
Theorem derivesFrom_parent_order_irrelevant (h1 h2 : heap) (fuel : nat)
    (this r : addr) :
  closed h1 → acyclic h1 →
  (∀ p, is_Some (h1 !! p) ↔ is_Some (h2 !! p)) →
  (∀ p q, parent_edge h1 p q ↔ parent_edge h2 p q) →
  is_Some (h1 !! this) → size h1 ≤ fuel →
  derivesFrom h1 fuel this r = derivesFrom h2 fuel this r.
Proof.
  intros Hcl Hac Hlive Hedge Hthis Hsz.
  assert (closed h2) as Hcl2.
  { intros p q Hpq. apply Hlive. eapply Hcl. by apply Hedge. }
  assert (acyclic h2) as Hac2.
  { intros p Htc. apply (Hac p).
    eapply tc_parent_edge_equiv; [|done]. intros x y. apply Hedge. }
  destruct (derivesFrom_returns h1 fuel this r) as [b1 Hb1]; [done..|].
  destruct (derivesFrom_returns h2 fuel this r) as [b2 Hb2]; [done..| | |].
  { by apply Hlive. }
  { by rewrite <-(same_live_size h1 h2). }
  rewrite Hb1, Hb2. f_equal.
  assert (rtc (parent_edge h1) this r ↔ rtc (parent_edge h2) this r) as Hrtc.
  { split; apply rtc_subrel; intros x y; apply Hedge. }
  destruct b1, b2; try done.
  - apply derivesFrom_reach in Hb1. apply derivesFrom_unreach in Hb2.
    destruct Hb2. by apply Hrtc.
  - apply derivesFrom_reach in Hb2. apply derivesFrom_unreach in Hb1.
    destruct Hb1. by apply Hrtc.
Qed.

Lemma RTTI_new_same_parents (h : heap) (a : addr) (d : RTTI) (name : string)
    (ps : list addr) :
  h !! a = Some d → (∀ q, q ∈ m_parents d ↔ q ∈ ps) →
  (∀ p, is_Some (h !! p) ↔ is_Some (RTTI_new a name ps h !! p))
  ∧ (∀ p q, parent_edge h p q ↔ parent_edge (RTTI_new a name ps h) p q).
Proof.
  intros Ha Hps. split.
  - intros p. unfold RTTI_new. rewrite lookup_insert_is_Some'.
    split; [by right|]. intros [<-|?]; [by exists d | done].
  - intros p q. rewrite parent_edge_new. split.
    + intros Hedge. destruct (decide (p = a)) as [->|Hne]; [|by right].
      left. split; [done|]. destruct Hedge as [d' [Hd' Hq]].
      rewrite Ha in Hd'. injection Hd' as <-. by apply Hps.
    + intros [[-> Hq]|[_ Hedge]]; [|done]. exists d. split; [done|].
      by apply Hps.
Qed.

Lemma derivesFrom_parent_order_irrelevant_witness :
  derivesFrom classless_heap 5 3 2
  = derivesFrom (RTTI_new 3 "AmphibiousVehicle" [2; 1] classless_heap) 5 3 2.
Proof.
  assert (classless_heap !! 3 = Some (mkRTTI "AmphibiousVehicle" [1; 2]))
    as H3 by (vm_compute; reflexivity).
  assert (∀ q : nat, q ∈ [1; 2] ↔ q ∈ [2; 1]) as Hps.
  { intros q. rewrite !elem_of_cons, !elem_of_nil. tauto. }
  destruct (RTTI_new_same_parents classless_heap 3 _ "AmphibiousVehicle"
              [2; 1] H3 Hps) as [Hlive Hedge].
  apply (derivesFrom_parent_order_irrelevant classless_heap
           (RTTI_new 3 "AmphibiousVehicle" [2; 1] classless_heap) 5 3 2).
  - apply constructible_closed, classless_heap_constructible.
  - apply constructible_acyclic, classless_heap_constructible.
  - apply Hlive.
  - apply Hedge.
  - vm_compute. by eexists.
  - vm_compute. lia.
Defined.

(** Without acyclicity the order does matter: with the target first the call
    returns [true] before it meets the cycle, with the cycle first it runs
    on. *)
Example derivesFrom_parent_order_cyclic :
  derivesFrom (RTTI_new 7 "A" [8; 7] ∅) 100 7 8 = Returned true
  ∧ derivesFrom (RTTI_new 7 "A" [7; 8] ∅) 100 7 8 = OutOfFuel.
Proof. vm_compute. done. Qed.

(** A query on a descriptor of a closed store never looks at an address
    outside the store, so a descriptor constructed there later is not seen. *)
Lemma derivesFrom_frame (h : heap) (a : addr) (name : string)
    (ps : list addr) (fuel : nat) (this r : addr) :
  closed h → h !! a = None → is_Some (h !! this) →
  derivesFrom (RTTI_new a name ps h) fuel this r = derivesFrom h fuel this r.
Proof.
  intros Hcl Hfresh. revert this.
  induction fuel as [|fuel IH]; intros this Hthis; simpl; [done|].
  destruct (decide (this = r)); [done|].
  destruct Hthis as [d Hd]. unfold RTTI_new at 1.
  rewrite lookup_insert_ne; [|intros ->; congruence]. rewrite Hd.
  apply parents_loop_ext_in. intros p Hp. apply IH.
  apply (Hcl this p). by exists d.
Qed.

(** X6.  Constructing a further descriptor changes no answer between the
    descriptors already there: every query on an existing descriptor of a
    closed store returns the same after the construction as before, for
    every target and every budget. *)
Theorem derivesFrom_stable_under_construction (h : heap) (a : addr)
    (name : string) (ps : list addr) (fuel : nat) (this r : addr) :
  closed h → h !! a = None → is_Some (h !! this) →
  derivesFrom (RTTI_new a name ps h) fuel this r = derivesFrom h fuel this r.
Proof. apply derivesFrom_frame. Qed.

Lemma derivesFrom_stable_under_construction_witness :
  derivesFrom (RTTI_new 9 "HoverCraft" [3] classless_heap) 4 3 0
  = derivesFrom classless_heap 4 3 0.
Proof.
  apply (derivesFrom_stable_under_construction classless_heap 9 "HoverCraft"
           [3] 4 3 0).
  - apply constructible_closed, classless_heap_constructible.
  - vm_compute. reflexivity.
  - vm_compute. by eexists.
Defined.

(** X7.  The ancestors of a new descriptor are itself and the ancestors of
    its parents: constructed on a closed acyclic store with parents from the
    store, it derives from [r] exactly when [r] is the new descriptor or one
    of the listed parents derives from [r]. *)
Theorem derivesFrom_new_descriptor (h : heap) (a : addr) (name : string)
    (ps : list addr) (fuel : nat) (r : addr) :
  closed h → acyclic h → h !! a = None →
  Forall (λ p, is_Some (h !! p)) ps → size h ≤ fuel →
  ∃ b, derivesFrom (RTTI_new a name ps h) (S fuel) a r = Returned b
       ∧ (b = true ↔
          r = a ∨ ∃ p, p ∈ ps ∧ derivesFrom h fuel p r = Returned true).
Proof.
  intros Hcl Hac Hfresh Hps Hsz. rewrite Forall_forall in Hps. simpl.
  destruct (decide (a = r)) as [->|Hne].
  { exists true. split; [done|]. split; [by left | done]. }
  unfold RTTI_new at 1. rewrite lookup_insert_eq. simpl.
  rewrite (parents_loop_ext_in _ (λ p, derivesFrom h fuel p r)).
  2:{ intros p Hp. apply derivesFrom_frame; [done..|]. by apply Hps. }
  destruct (parents_loop_returns (λ p, derivesFrom h fuel p r) ps) as [b Hb].
  { intros p Hp. apply derivesFrom_returns; [done..| |done]. by apply Hps. }
  exists b. split; [done|]. destruct b.
  - split; [|done]. intros _. right. by apply parents_loop_true in Hb.
  - split; [done|]. intros [?|(p & Hp & Htrue)]; [done|].
    rewrite parents_loop_false in Hb. rewrite (Hb p Hp) in Htrue. done.
Qed.

Lemma derivesFrom_new_descriptor_witness :
  ∃ b, derivesFrom (RTTI_new 9 "HoverCraft" [1; 2] classless_heap) 6 9 0
         = Returned b
       ∧ (b = true ↔
          0 = 9 ∨ ∃ p, p ∈ [1; 2]
                       ∧ derivesFrom classless_heap 5 p 0 = Returned true).
Proof.
  apply (derivesFrom_new_descriptor classless_heap 9 "HoverCraft" [1; 2] 5 0).
  - apply constructible_closed, classless_heap_constructible.
  - apply constructible_acyclic, classless_heap_constructible.
  - vm_compute. reflexivity.
  - repeat constructor; vm_compute; by eexists.
  - vm_compute. lia.
Defined.

(** X8.  Construction order is a topological order: a descriptor never
    derives from one constructed after it. *)
Theorem derivesFrom_never_from_newer (h : heap) (a : addr) (name : string)
    (ps : list addr) (fuel : nat) (this : addr) :
  closed h → acyclic h → h !! a = None → is_Some (h !! this) →
  size h ≤ fuel →
  derivesFrom (RTTI_new a name ps h) fuel this a = Returned false.
Proof.
  intros Hcl Hac Hfresh Hthis Hsz.
  rewrite derivesFrom_frame; [|done..].
  apply derivesFrom_false_iff; [done..|].
  intros [->|(p & _ & Hedge)]%rtc_inv_r.
  - destruct Hthis. congruence.
  - apply Hcl in Hedge as [d Hd]. congruence.
Qed.

Lemma derivesFrom_never_from_newer_witness :
  derivesFrom (RTTI_new 9 "HoverCraft" [3] classless_heap) 5 3 9
  = Returned false.
Proof.
  apply (derivesFrom_never_from_newer classless_heap 9 "HoverCraft" [3] 5 3).
  - apply constructible_closed, classless_heap_constructible.
  - apply constructible_acyclic, classless_heap_constructible.
  - vm_compute. reflexivity.
  - vm_compute. by eexists.
  - vm_compute. lia.
Defined.

(** ** Static initialisation and the class hierarchy *)

Section static_init_facts.
Context (typeInfo : Class → addr) (Hinj : Inj (=) (=) typeInfo).
Implicit Types (lines : list (Class * list Class)) (c : Class).

Lemma static_init_snoc lines (line : Class * list Class) :
  static_init typeInfo (lines ++ [line])
  = RTTI_DEFINE typeInfo line (static_init typeInfo lines).
Proof. unfold static_init. by rewrite foldl_app. Qed.

Lemma static_heap_static_init :
  static_heap typeInfo = static_init typeInfo RTTI_DEFINE_lines.
Proof. reflexivity. Qed.

(** Only the static members of the classes that have a line are
    initialised. *)
Lemma static_init_lookup_None lines (a : addr) :
  (∀ line, line ∈ lines → typeInfo line.1 ≠ a) →
  static_init typeInfo lines !! a = None.
Proof.
  induction lines as [|line lines IH] using rev_ind; intros Hnot; [done|].
  rewrite static_init_snoc. unfold RTTI_DEFINE, RTTI_new.
  rewrite lookup_insert_ne.
  - apply IH. intros l Hl. apply Hnot, elem_of_app. by left.
  - apply Hnot, elem_of_app. right. by apply list_elem_of_singleton.
Qed.

(** A class with one line gets the descriptor that line describes, wherever
    the line stands. *)
Lemma static_init_lookup_Some lines c (ps : list Class) :
  NoDup lines.*1 → (c, ps) ∈ lines →
  static_init typeInfo lines !! typeInfo c
  = Some (mkRTTI (stringify c) (typeInfo <$> ps)).
Proof.
  induction lines as [|line lines IH] using rev_ind; intros Hnd Hin.
  { by apply elem_of_nil in Hin. }
  rewrite fmap_app in Hnd. apply NoDup_app in Hnd as (Hnd & Hdisj & _).
  rewrite static_init_snoc. unfold RTTI_DEFINE, RTTI_new.
  apply elem_of_app in Hin as [Hin| <-%list_elem_of_singleton].
  - rewrite lookup_insert_ne; [by apply IH|].
    intros Heq%Hinj. apply (Hdisj c).
    + by apply (list_elem_of_fmap_2 fst _ (c, ps)).
    + rewrite <-Heq. simpl. left.
  - simpl. by rewrite lookup_insert_eq.
Qed.
End static_init_facts.

(** X9.  The order of the [RTTI_DEFINE] lines does not matter.  A parent
    vector holds the addresses of the parents' static members, which are
    taken, not read, during initialisation; so as long as every class has at
    most one line, running the lines in any order builds the same store. *)
Theorem static_init_order_irrelevant (typeInfo : Class → addr)
    (lines lines' : list (Class * list Class)) :
  Inj (=) (=) typeInfo → NoDup lines.*1 → lines ≡ₚ lines' →
  static_init typeInfo lines' = static_init typeInfo lines.
Proof.
  intros Hinj Hnd Hperm.
  assert (NoDup lines'.*1) as Hnd' by by rewrite <-Hperm.
  apply map_eq. intros a.
  destruct (decide (a ∈ typeInfo <$> lines.*1)) as [Hin|Hnot].
  - apply list_elem_of_fmap in Hin as (c & -> & Hc).
    apply list_elem_of_fmap in Hc as ([c' ps] & -> & Hline). simpl.
    rewrite (static_init_lookup_Some typeInfo Hinj lines c' ps); [|done..].
    apply static_init_lookup_Some; [done..|]. by rewrite <-Hperm.
  - assert (∀ line, line ∈ lines → typeInfo line.1 ≠ a) as Hne.
    { intros line Hline <-. apply Hnot.
      by apply list_elem_of_fmap_2, list_elem_of_fmap_2. }
    rewrite !static_init_lookup_None; [done..|].
    intros line Hline. apply Hne. by rewrite Hperm.
Qed.

Lemma static_init_order_irrelevant_witness :
  static_init typeInfo_layout (reverse RTTI_DEFINE_lines)
  = static_init typeInfo_layout RTTI_DEFINE_lines.
Proof.
  apply (static_init_order_irrelevant typeInfo_layout RTTI_DEFINE_lines
           (reverse RTTI_DEFINE_lines)).
  - apply typeInfo_layout_inj.
  - vm_compute. repeat constructor; rewrite ?elem_of_cons, ?elem_of_nil;
      intros ?; intuition discriminate.
  - symmetry. apply reverse_Permutation.
Defined.

Section static_hierarchy_facts.
Context (typeInfo : Class → addr) (Hinj : Inj (=) (=) typeInfo).

Lemma static_heap_size : size (static_heap typeInfo) ≤ 5.
Proof.
  assert (∀ (m : gmap nat RTTI) i x, size (<[i:=x]> m) ≤ S (size m)) as Hle.
  { intros m i x. rewrite map_size_insert. destruct (m !! i); simpl; lia. }
  unfold static_heap, RTTI_DEFINE, RTTI_new. simpl.
  repeat (etrans; [apply Hle|]; apply le_n_S).
  by rewrite map_size_empty.
Qed.

(** The parent edges of the static store are the base-class lists. *)
Lemma static_parent_edge (c : Class) (q : addr) :
  parent_edge (static_heap typeInfo) (typeInfo c) q ↔
  ∃ b, direct_base c b ∧ q = typeInfo b.
Proof.
  unfold parent_edge, direct_base.
  rewrite (static_heap_lookup typeInfo Hinj). split.
  - intros (d & [= <-] & Hq). simpl in Hq.
    apply list_elem_of_fmap in Hq as (b & -> & Hb). by exists b.
  - intros (b & Hb & ->). eexists. split; [done|]. simpl.
    by apply list_elem_of_fmap_2.
Qed.

Lemma static_reach_classes (p q : addr) :
  rtc (parent_edge (static_heap typeInfo)) p q →
  ∀ c, p = typeInfo c → ∃ d, q = typeInfo d ∧ rtc direct_base c d.
Proof.
  induction 1 as [p|p y q Hedge _ IH]; intros c ->.
  - by exists c.
  - apply static_parent_edge in Hedge as (b & Hb & ->).
    destruct (IH b eq_refl) as (d & -> & Hd).
    exists d. split; [done|]. by apply rtc_l with b.
Qed.

Lemma static_classes_reach (c d : Class) :
  rtc direct_base c d →
  rtc (parent_edge (static_heap typeInfo)) (typeInfo c) (typeInfo d).
Proof.
  induction 1 as [c|c b d Hb _ IH]; [done|].
  apply rtc_l with (typeInfo b); [|done].
  apply static_parent_edge. by exists b.
Qed.

Lemma static_derivesFrom_bases (fuel : nat) (c d : Class) :
  5 ≤ fuel →
  ∃ b, derivesFrom (static_heap typeInfo) fuel (typeInfo c) (typeInfo d)
         = Returned b
       ∧ (b = true ↔ rtc direct_base c d).
Proof.
  intros Hfuel.
  pose proof (static_heap_constructible typeInfo Hinj) as Hc.
  destruct (derivesFrom_returns (static_heap typeInfo) fuel
              (typeInfo c) (typeInfo d)) as [b Hb].
  { by apply constructible_closed. }
  { by apply constructible_acyclic. }
  { rewrite (static_heap_lookup typeInfo Hinj). by eexists. }
  { pose proof static_heap_size. lia. }
  exists b. split; [done|]. destruct b.
  - split; [|done]. intros _. apply derivesFrom_reach in Hb.
    destruct (static_reach_classes _ _ Hb c eq_refl) as (d' & Heq & Hd').
    by apply Hinj in Heq as ->.
  - split; [done|]. intros Hreach%static_classes_reach.
    by apply derivesFrom_unreach in Hb.
Qed.
End static_hierarchy_facts.

(** X10.  The descriptors agree with the class declarations: for any two
    classes of the demo, the descriptor of [c] derives from the descriptor
    of [d] exactly when [d] is [c] or is reached from [c] through base-class
    lists. *)
Theorem static_derivesFrom_iff_base (typeInfo : Class → addr) (fuel : nat)
    (c d : Class) :
  Inj (=) (=) typeInfo → 5 ≤ fuel →
  ∃ b, derivesFrom (static_heap typeInfo) fuel (typeInfo c) (typeInfo d)
         = Returned b
       ∧ (b = true ↔ rtc direct_base c d).
Proof. intros Hinj. by apply static_derivesFrom_bases. Qed.

Lemma static_derivesFrom_iff_base_witness :
  ∃ b, derivesFrom (static_heap typeInfo_layout) 5
         (typeInfo_layout TeachingLibrarian) (typeInfo_layout StaffMember)
         = Returned b
       ∧ (b = true ↔ rtc direct_base TeachingLibrarian StaffMember).
Proof.
  apply (static_derivesFrom_iff_base typeInfo_layout 5
           TeachingLibrarian StaffMember).
  - apply typeInfo_layout_inj.
  - lia.
Defined.

(** X11.  A check against the declared class of a pointer always succeeds:
    whenever the class an instance was created as is, or derives from, the
    class its pointer is declared with, the descriptor [getTypeInfo] returns
    derives from the descriptor of the declared class. *)
Theorem getTypeInfo_derivesFrom_static (typeInfo : Class → addr)
    (fuel : nat) (p : instance_ptr) :
  Inj (=) (=) typeInfo → 5 ≤ fuel →
  rtc direct_base (dynamic_type p) (static_type p) →
  derivesFrom (static_heap typeInfo) fuel
    (getTypeInfo typeInfo p) (static_typeInfo typeInfo p) = Returned true.
Proof.
  intros Hinj Hfuel Hup. unfold getTypeInfo, RTTI_DECLARE, static_typeInfo.
  destruct (static_derivesFrom_bases typeInfo Hinj fuel
              (dynamic_type p) (static_type p) Hfuel) as (b & Hb & Hiff).
  rewrite Hb. f_equal. by apply Hiff.
Qed.

Lemma getTypeInfo_derivesFrom_static_witness :
  derivesFrom (static_heap typeInfo_layout) 5
    (getTypeInfo typeInfo_layout teachingLibrarian)
    (static_typeInfo typeInfo_layout teachingLibrarian) = Returned true.
Proof.
  apply (getTypeInfo_derivesFrom_static typeInfo_layout 5 teachingLibrarian).
  - apply typeInfo_layout_inj.
  - lia.
  - simpl. apply rtc_l with Teacher; [|apply rtc_once];
      unfold direct_base; simpl; rewrite !elem_of_cons; tauto.
Defined.

(** X12.  Through any pointer, the name stored in the descriptor that
    [getTypeInfo] returns is the name of the class the instance was created
    as; in the demo hierarchy two instances report the same name exactly
    when they report the same descriptor. *)
Theorem getTypeInfo_getClassName (typeInfo : Class → addr)
    (p q : instance_ptr) :
  Inj (=) (=) typeInfo →
  getClassName <$> static_heap typeInfo !! getTypeInfo typeInfo p
    = Some (stringify (dynamic_type p))
  ∧ (getClassName <$> static_heap typeInfo !! getTypeInfo typeInfo p
       = getClassName <$> static_heap typeInfo !! getTypeInfo typeInfo q
     ↔ getTypeInfo typeInfo p = getTypeInfo typeInfo q).
Proof.
  intros Hinj. unfold getTypeInfo, RTTI_DECLARE.
  rewrite !(static_heap_lookup typeInfo Hinj). simpl. split; [done|]. split.
  - intros [= Hname]. f_equal.
    by destruct (dynamic_type p), (dynamic_type q).
  - by intros ->%Hinj.
Qed.

Lemma getTypeInfo_getClassName_witness :
  getClassName <$> static_heap typeInfo_layout
                     !! getTypeInfo typeInfo_layout librarian
    = Some "Librarian"
  ∧ (getClassName <$> static_heap typeInfo_layout
                        !! getTypeInfo typeInfo_layout librarian
       = getClassName <$> static_heap typeInfo_layout
                            !! getTypeInfo typeInfo_layout teacher
     ↔ getTypeInfo typeInfo_layout librarian
       = getTypeInfo typeInfo_layout teacher).
Proof.
  apply (getTypeInfo_getClassName typeInfo_layout librarian teacher).
  apply typeInfo_layout_inj.
Defined.

(** X13.  Cross-casts are rejected: on a closed acyclic store, a descriptor
    does not derive from a different descriptor that lists all of its
    parents, in particular not from a sibling with the same parent list. *)
Theorem derivesFrom_sibling (h : heap) (fuel : nat) (A B : addr)
    (dA dB : RTTI) :
  closed h → acyclic h →
  h !! A = Some dA → h !! B = Some dB → A ≠ B →
  (∀ p, p ∈ m_parents dA → p ∈ m_parents dB) →
  size h ≤ fuel →
  derivesFrom h fuel A B = Returned false.
Proof.
  intros Hcl Hac HA HB Hne Hsub Hsz.
  apply derivesFrom_false_iff; [done..|by eexists|done|].
  intros [?|(p & (d & Hd & Hp) & Hreach)]%rtc_inv; [done|].
  rewrite HA in Hd. injection Hd as <-.
  apply (Hac B). eapply tc_rtc_r; [|done].
  apply tc_once. exists dB. split; [done|]. by apply Hsub.
Qed.

Lemma derivesFrom_sibling_witness :
  derivesFrom classless_heap 5 1 2 = Returned false.
Proof.
  apply (derivesFrom_sibling classless_heap 5 1 2
           (mkRTTI "LandVehicle" [0]) (mkRTTI "WaterVehicle" [0])).
  - apply constructible_closed, classless_heap_constructible.
  - apply constructible_acyclic, classless_heap_constructible.
  - vm_compute. reflexivity.
  - vm_compute. reflexivity.
  - lia.
  - intros p Hp. exact Hp.
  - vm_compute. lia.
Defined.
